(** * Query-result patches: [createPatches] and [applyPatches]

    A shallow embedding of the two functions that compute and replay the
    patches sent from the database worker to the holders of a query result,
    followed by the properties of the incremental result-set patch engine.

    Layout: values and rows, patches, the differencer [createPatches], the
    applier [applyPatches] on values, the applier on a store of arrays
    (module [Store]), the [cast] helper of the model file, and then the
    lemmas and theorems. *)

From Stdlib Require Import PrimFloat SpecFloat FloatAxioms.
From stdpp Require Import gmap strings list fin_maps sorting.

(** ** Values and rows *)

(** Modelled from the spec: the declaration of [SQLiteRowRecord] (file
    [./types]) is not among the sources.  A field holds null, a number, a
    string or an opaque binary value.  Numbers are JavaScript numbers, that
    is IEEE doubles.  A binary value is a heap object ([Uint8Array]); the
    code only ever compares it with [!==], which looks at the reference and
    never at the bytes, so it is represented by its reference. *)
Inductive SqliteValue : Type :=
  | Null
  | Num (n : float)
  | Str (s : string)
  | Blob (ref : positive).

(** [a === b] on two field values: no coercion between the four kinds; IEEE
    equality on numbers (NaN differs from itself, +0 equals -0); reference
    identity on binary values. *)
Definition strict_eqb (a b : SqliteValue) : bool :=
  match a, b with
  | Null, Null => true
  | Num x, Num y => PrimFloat.eqb x y
  | Str s, Str t => bool_decide (s = t)
  | Blob r, Blob q => bool_decide (r = q)
  | _, _ => false
  end.

(** Modelled from the spec: a row is a JavaScript object used as a map from
    field names to values ([Record<string, SqliteValue>]); field names are
    unique within a row. *)
Abbreviation Row := (gmap string SqliteValue).

(** The result of the property read [row[key]]: [None] is [undefined], the
    value read at a field name the row does not have. *)
Definition get (row : Row) (key : string) : option SqliteValue := row !! key.

(** [x !== y] on the results of two property reads. *)
Definition strict_neqb (x y : option SqliteValue) : bool :=
  match x, y with
  | None, None => false
  | Some a, Some b => negb (strict_eqb a b)
  | _, _ => true
  end.

(** The field names enumerated by [for (const key in row)].  JavaScript
    enumerates them in insertion order; the loop only asks whether some key
    differs, which does not depend on the order. *)
Definition keys (row : Row) : list string := (map_to_list row).*1.

(** ** Patches *)

(** Modelled from the spec: the declaration of [Patch] (file [./types]) is
    not among the sources; the three cases are the three [op] tags the code
    builds and matches on.  The index of a [replaceAt] patch is a
    non-negative integer. *)
Inductive Patch : Type :=
  | replaceAll (value : list Row)
  | replaceAt (index : nat) (value : Row)
  | purge.

(** ** The differencer *)

(** The inner loop of [createPatches]:
    [for (const key in pItem) if (pItem[key] !== nItem[key]) { push; break }].
    It pushes at most once, exactly when some enumerated key differs. *)
Definition row_changed (pItem nItem : Row) : bool :=
  existsb (λ key, strict_neqb (get pItem key) (get nItem key)) (keys pItem).

(** One iteration of the outer loop, on the patches pushed so far.  The
    loop runs only after the two length tests, with [i] below the common
    length, so both reads are in range and the last case is never taken. *)
Definition loop_body (previous next : list Row)
    (replaceAtOps : list Patch) (i : nat) : list Patch :=
  match previous !! i, next !! i with
  | Some pItem, Some nItem =>
      if row_changed pItem nItem
      then replaceAtOps ++ [replaceAt i nItem]
      else replaceAtOps
  | _, _ => replaceAtOps
  end.

Definition createPatches (previous : option (list Row)) (next : list Row)
    : list Patch :=
  match previous with
  | None => [replaceAll next]
  | Some previous =>
      if (length previous =? 0) && (length next =? 0) then []
      else if negb (length previous =? length next) then [replaceAll next]
      else
        let replaceAtOps :=
          foldl (loop_body previous next) [] (seq 0 (length previous)) in
        if length replaceAtOps =? 0 then []
        else if length replaceAtOps =? length previous then [replaceAll next]
        else replaceAtOps
  end.

(** ** The applier, on values *)

(** An element position of a JavaScript array of rows at run time: it
    holds a row, or it holds [undefined], or it is a hole (no element at
    that index; it reads as [undefined] but is not an own property). *)
Inductive Slot : Type :=
  | SlotRow (row : Row)
  | SlotUndefined
  | SlotHole.

(** A result set seen as an array: every position holds a row. *)
Definition dense (rows : list Row) : list Slot := SlotRow <$> rows.

(** [[...a]]: the elements of a new array with what the iteration of [a]
    yields, position by position; a hole yields [undefined]. *)
Definition spread_elements (a : list Slot) : list Slot :=
  (λ slot, match slot with SlotHole => SlotUndefined | _ => slot end) <$> a.

(** An integer is an array index when it is below 2^32 - 1. *)
Definition is_array_index (index : nat) : bool :=
  (N.of_nat index <? 4294967295)%N.

(** [a[index] = value] on an array, as far as its elements go: in range
    the position is overwritten; past the end, for an array index, the
    array grows to [index + 1] and the positions in between are holes; for
    an integer that is not an array index the write adds an ordinary
    property to the object, and the elements and the length stay as they
    are. *)
Definition array_assign (a : list Slot) (index : nat) (value : Row)
    : list Slot :=
  if decide (index < length a) then <[index := SlotRow value]> a
  else if is_array_index index
  then a ++ replicate (index - length a) SlotHole ++ [SlotRow value]
  else a.

(** A held result: [None] is [undefined], no known result. *)
Abbreviation HeldResult := (option (list Slot)).

Definition Unknown : HeldResult := None.
Definition Known (rows : list Row) : HeldResult := Some (dense rows).

(** The callback of [patches.reduce]. *)
Definition reducer (a : HeldResult) (patch : Patch) : HeldResult :=
  match patch with
  | replaceAll value => Known value
  | replaceAt index value =>
      match a with
      | None => None
      | Some a => Some (array_assign (spread_elements a) index value)
      end
  | purge => None
  end.

Definition applyPatches (patches : list Patch) (current : HeldResult)
    : HeldResult :=
  foldl reducer current patches.

(** What a holder passes as [current] when it holds [previous]. *)
Definition held (previous : option (list Row)) : HeldResult :=
  dense <$> previous.

(** ** The applier, on a store of arrays

    A JavaScript array is an object: [current], the [value] of a
    [replaceAll] patch and the result of [applyPatches] are references, and
    [next[patch.index] = patch.value] is a write to the store.  This module
    keeps the arrays in a store, so that what [applyPatches] does to the
    arrays it is given can be stated.  Rows are never written by either
    function and stay values. *)
Module Store.

Abbreviation loc := positive.

(** The arrays allocated so far, by reference. *)
Abbreviation heap := (gmap loc (list Slot)).

Inductive Patch : Type :=
  | replaceAll (value : loc)
  | replaceAt (index : nat) (value : Row)
  | purge.

(** [[...a]]: a new array with what the iteration of [a] yields. *)
Definition spread (h : heap) (elems : list Slot) : loc * heap :=
  let next := fresh (dom h) in (next, <[next := spread_elements elems]> h).

(** [arr[index] = value]: a write to the array behind [arr]. *)
Definition assign (h : heap) (arr : loc) (index : nat) (value : Row) : heap :=
  alter (λ elems, array_assign elems index value) arr h.

(** The callback of [patches.reduce], threading the store.  A reference
    held by a running program is never dangling; the store has no array for
    [a] only in states no program reaches, and the step then does nothing. *)
Definition reducer (st : option loc * heap) (patch : Patch)
    : option loc * heap :=
  let (a, h) := st in
  match patch with
  | replaceAll value => (Some value, h)
  | replaceAt index value =>
      match a with
      | None => (None, h)
      | Some a =>
          match h !! a with
          | Some elems =>
              let (next, h1) := spread h elems in
              (Some next, assign h1 next index value)
          | None => (Some a, h)
          end
      end
  | purge => (None, h)
  end.

Definition applyPatches (patches : list Patch) (current : option loc)
    (h : heap) : option loc * heap :=
  foldl reducer (current, h) patches.

End Store.

(** The value of a store-level patch, and of a store-level held result, in
    a given store. *)
Inductive patch_in (h : Store.heap) : Store.Patch → Patch → Prop :=
  | patch_in_replaceAll l rows :
      h !! l = Some (dense rows) →
      patch_in h (Store.replaceAll l) (replaceAll rows)
  | patch_in_replaceAt index value :
      patch_in h (Store.replaceAt index value) (replaceAt index value)
  | patch_in_purge :
      patch_in h Store.purge purge.

Definition held_in (h : Store.heap) (r : option Store.loc) (v : HeldResult)
    : Prop :=
  match r, v with
  | None, None => True
  | Some l, Some a => h !! l = Some a
  | _, _ => False
  end.

(** ** The [cast] helper

    [cast] converts between the JavaScript types that SQLite lacks and
    their stand-ins: a boolean and a [SqliteBoolean] (a number), a [Date]
    and a [SqliteDate] (a string). *)

(** The callback of the filter of the [SqliteBoolean] schema,
    [(s) => s === 0 || s === 1]. *)
Definition SqliteBoolean_filter (s : float) : bool :=
  PrimFloat.eqb s 0 || PrimFloat.eqb s 1.

Section Cast.

(** JavaScript's built-in [Date] objects are taken as given, with the two
    operations [cast] uses: [toISOString], which throws a [RangeError] on
    an invalid date ([None]), and the constructor [new Date(string)]. *)
Variable JsDate : Type.
Variable toISOString : JsDate → option string.
Variable newDate : string → JsDate.

(** An argument or a result of [cast], by the test that selects the
    branch: [typeof value === "boolean"], [typeof value === "number"],
    [value instanceof Date], and otherwise a string. *)
Inductive CastValue : Type :=
  | CastBoolean (b : bool)
  | CastNumber (n : float)
  | CastDate (d : JsDate)
  | CastString (s : string).

(** [None] is the exception thrown by [toISOString]. *)
Definition cast (value : CastValue) : option CastValue :=
  match value with
  | CastBoolean value => Some (CastNumber (if value then 1 else 0))
  | CastNumber value => Some (CastBoolean (PrimFloat.eqb value 1))
  | CastDate value => CastString <$> toISOString value
  | CastString value => Some (CastDate (newDate value))
  end.

End Cast.

Arguments CastBoolean {JsDate} b.
Arguments CastNumber {JsDate} n.
Arguments CastDate {JsDate} d.
Arguments CastString {JsDate} s.
Arguments cast {JsDate} toISOString newDate value.

(** ** Vocabulary of the properties *)

(** A row is changed when some field name present in the previous row maps
    to a value strictly unequal to the value at that field name in the next
    row (a field name the next row lacks reads as [undefined], which is
    strictly unequal to every field value). *)
Definition RowChanged (p n : Row) : Prop :=
  ∃ key x, p !! key = Some x ∧ strict_neqb (Some x) (n !! key) = true.

(** Row [i] of [previous] against row [i] of [next]. *)
Definition changed_at (previous next : list Row) (i : nat) : Prop :=
  ∃ p n, previous !! i = Some p ∧ next !! i = Some n ∧ RowChanged p n.

Definition is_replaceAt (patch : Patch) : Prop :=
  ∃ index value, patch = replaceAt index value.

(** The order of two [replaceAt] patches by index. *)
Definition index_lt (p q : Patch) : Prop :=
  match p, q with
  | replaceAt i _, replaceAt j _ => i < j
  | _, _ => False
  end.

(** A sequence of [replaceAt] patches with strictly ascending indices. *)
Definition ascending_replaceAt (patches : list Patch) : Prop :=
  Forall is_replaceAt patches ∧ StronglySorted index_lt patches.

(** The next row has no field name beyond those of the previous row, and
    two fields that [===] holds equal are the same value (only +0 against
    -0 are strictly equal and yet distinct). *)
Definition row_aligned (p n : Row) : Prop :=
  dom n ⊆ dom p ∧
  ∀ key x y, p !! key = Some x → n !! key = Some y →
    strict_eqb x y = true → x = y.

(** Every row of [previous] is field-wise strictly equal to the row of
    [next] at the same index: each field name present in the previous row
    maps to a strictly equal value in the next row. *)
Definition rows_fieldwise_equal (previous next : list Row) : Prop :=
  ∀ i p n key x, previous !! i = Some p → next !! i = Some n →
    p !! key = Some x → ∃ y, n !! key = Some y ∧ strict_eqb x y = true.

(** At every index that a concrete [previous] and [next] have in common,
    the row is changed or the two rows are aligned. *)
Definition rows_aligned (previous : option (list Row)) (next : list Row)
    : Prop :=
  ∀ rows i p n, previous = Some rows → rows !! i = Some p →
    next !! i = Some n → RowChanged p n ∨ row_aligned p n.

(** The same, asked only of a concrete [previous] that has the length of
    [next]: results of different lengths are not compared row by row. *)
Definition aligned_when_same_length (previous : option (list Row))
    (next : list Row) : Prop :=
  ∀ rows, previous = Some rows → length rows = length next →
    rows_aligned (Some rows) next.

(** The third shape of an answer of [createPatches]: a non-empty sequence
    of [replaceAt] patches, strictly ascending, shorter than the common
    length of the two results. *)
Definition shape_replaceAt (previous : option (list Row)) (next : list Row)
    (patches : list Patch) : Prop :=
  patches ≠ [] ∧ ascending_replaceAt patches ∧
  ∃ rows, previous = Some rows ∧ length rows = length next ∧
          length patches < length rows.

(** The patch the outer loop pushes at index [i], if any. *)
Definition pushed_at (previous next : list Row) (i : nat) : option Patch :=
  match previous !! i, next !! i with
  | Some pItem, Some nItem =>
      if row_changed pItem nItem then Some (replaceAt i nItem) else None
  | _, _ => None
  end.

(** ** Sample data *)

Definition rowA (x : float) : Row := {[ "a" := Num x ]}.
Definition rowAB (x y : float) : Row := <[ "b" := Num y ]> (rowA x).

Definition sample_previous : list Row := [rowA 1; rowA 2; rowA 3].
Definition sample_next : list Row := [rowA 1; rowA 9; rowA 3].

(** A store in which a holder keeps [sample_previous] at reference 5. *)
Definition sample_heap : Store.heap := {[ 5%positive := dense sample_previous ]}.

(** * Lemmas *)

(** ** Field comparison *)

Lemma elem_of_keys (row : Row) (key : string) :
  key ∈ keys row ↔ is_Some (row !! key).
Proof.
  unfold keys. rewrite list_elem_of_fmap. split.
  - intros [[k x] [-> Hkx]]. apply elem_of_map_to_list in Hkx. by exists x.
  - intros [x Hx]. exists (key, x). split; [done|]. by apply elem_of_map_to_list.
Qed.

(** The inner loop detects exactly the changed rows. *)
Lemma row_changed_spec (p n : Row) : row_changed p n = true ↔ RowChanged p n.
Proof.
  unfold row_changed, RowChanged, get. rewrite existsb_exists. split.
  - intros [key [Hin Hne]]. apply list_elem_of_In, elem_of_keys in Hin as [x Hx].
    exists key, x. by rewrite <- Hx.
  - intros (key & x & Hx & Hne). exists key. split.
    + apply list_elem_of_In, elem_of_keys. by exists x.
    + by rewrite Hx.
Qed.

Lemma row_unchanged_spec (p n : Row) :
  row_changed p n = false ↔ ¬ RowChanged p n.
Proof.
  rewrite <- row_changed_spec. destruct (row_changed p n); split; try done.
Qed.

(** An unchanged row agrees with the next row on every field it has. *)
Lemma row_unchanged_lookup (p n : Row) (key : string) (x : SqliteValue) :
  row_changed p n = false → p !! key = Some x →
  ∃ y, n !! key = Some y ∧ strict_eqb x y = true.
Proof.
  intros Hun Hx. apply row_unchanged_spec in Hun.
  destruct (n !! key) as [y|] eqn:Hy.
  - exists y. split; [done|]. destruct (strict_eqb x y) eqn:He; [done|].
    exfalso. apply Hun. exists key, x. by rewrite Hy; simpl; rewrite He.
  - exfalso. apply Hun. exists key, x. by rewrite Hy.
Qed.

(** For aligned rows, unchanged means equal. *)
Lemma row_unchanged_eq (p n : Row) :
  row_aligned p n → row_changed p n = false → p = n.
Proof.
  intros [Hdom Hval] Hun. apply map_eq. intros key.
  destruct (p !! key) as [x|] eqn:Hx.
  - destruct (row_unchanged_lookup p n key x Hun Hx) as (y & Hy & He).
    rewrite Hy. f_equal. by apply (Hval key).
  - symmetry. apply not_elem_of_dom. intros Hin. apply Hdom in Hin.
    by apply not_elem_of_dom in Hx.
Qed.

(** ** The outer loop *)

Lemma loop_body_pushed (previous next : list Row) (ops : list Patch) (i : nat) :
  loop_body previous next ops i
  = ops ++ option_list (pushed_at previous next i).
Proof.
  unfold loop_body, pushed_at.
  destruct (previous !! i), (next !! i); simpl; rewrite ?app_nil_r; try done.
  destruct (row_changed _ _); simpl; by rewrite ?app_nil_r.
Qed.

(** The loop appends, index after index, what each index pushes. *)
Lemma loop_fold (previous next : list Row) (indices : list nat) :
  ∀ ops, foldl (loop_body previous next) ops indices
         = ops ++ omap (pushed_at previous next) indices.
Proof.
  induction indices as [|i indices IH]; intros ops; simpl.
  - by rewrite app_nil_r.
  - rewrite IH, loop_body_pushed.
    destruct (pushed_at previous next i); simpl;
      by rewrite <- ?app_assoc, ?app_nil_r.
Qed.

Lemma pushed_at_Some (previous next : list Row) (i : nat) (patch : Patch) :
  pushed_at previous next i = Some patch ↔
  ∃ p n, previous !! i = Some p ∧ next !! i = Some n ∧
         row_changed p n = true ∧ patch = replaceAt i n.
Proof.
  unfold pushed_at. split.
  - destruct (previous !! i) as [p|]; [|done].
    destruct (next !! i) as [n|]; [|done].
    destruct (row_changed p n) eqn:Hc; [|done].
    intros [= <-]. by exists p, n.
  - intros (p & n & -> & -> & -> & ->). done.
Qed.

Lemma pushed_at_None (previous next : list Row) (i : nat) :
  pushed_at previous next i = None ↔
  ∀ p n, previous !! i = Some p → next !! i = Some n →
         row_changed p n = false.
Proof.
  unfold pushed_at. split.
  - intros H p n Hp Hn. rewrite Hp, Hn in H.
    by destruct (row_changed p n).
  - intros H. destruct (previous !! i) as [p|]; [|done].
    destruct (next !! i) as [n|]; [|done]. by rewrite (H p n).
Qed.

(** ** Counting what a scan keeps *)

Section omap_count.
Context {A B : Type} (f : A → option B).

Lemma omap_length_le (l : list A) : length (omap f l) ≤ length l.
Proof.
  induction l as [|x l IH]; csimpl; [lia|].
  destruct (f x); csimpl; lia.
Qed.

Lemma omap_length_zero (l : list A) :
  length (omap f l) = 0 ↔ ∀ x, x ∈ l → f x = None.
Proof.
  induction l as [|x l IH]; csimpl.
  - split; [|done]. intros _ x Hx. by apply not_elem_of_nil in Hx.
  - destruct (f x) eqn:Hfx; csimpl.
    + split; [done|]. intros H. specialize (H x (list_elem_of_here _ _)).
      congruence.
    + rewrite IH. split.
      * intros H y [->|Hy]%elem_of_cons; auto.
      * intros H y Hy. apply H. by right.
Qed.

Lemma omap_length_full (l : list A) :
  length (omap f l) = length l ↔ ∀ x, x ∈ l → is_Some (f x).
Proof.
  induction l as [|x l IH]; csimpl.
  - split; [|done]. intros _ x Hx. by apply not_elem_of_nil in Hx.
  - pose proof (omap_length_le l) as Hle. destruct (f x) eqn:Hfx; csimpl.
    + split.
      * intros [= Hlen] y [->|Hy]%elem_of_cons; [by rewrite Hfx|].
        by apply IH.
      * intros H. f_equal. apply IH. intros y Hy. apply H. by right.
    + split; [lia|]. intros H.
      destruct (H x (list_elem_of_here _ _)) as [? ?]. congruence.
Qed.

End omap_count.

(** What the scan of the indices [s, s+1, ..., s+n-1] pushes: [replaceAt]
    patches only, at indices from [s] on, in strictly ascending order. *)
Lemma scan_sorted (previous next : list Row) (n : nat) :
  ∀ s, let ops := omap (pushed_at previous next) (seq s n) in
       Forall (λ patch, ∃ i v, patch = replaceAt i v ∧ s ≤ i) ops ∧
       StronglySorted index_lt ops.
Proof.
  induction n as [|n IH]; intros s; csimpl.
  - split; constructor.
  - destruct (IH (S s)) as [Hall Hsorted].
    assert (Hweak : Forall (λ patch, ∃ i v, patch = replaceAt i v ∧ s ≤ i)
                      (omap (pushed_at previous next) (seq (S s) n))).
    { eapply Forall_impl; [exact Hall|]. intros patch (i & v & -> & Hi).
      exists i, v. split; [done|lia]. }
    destruct (pushed_at previous next s) as [patch|] eqn:Hs; [|done].
    apply pushed_at_Some in Hs as (p & m & _ & _ & _ & ->). split.
    + constructor; [|done]. by exists s, m.
    + constructor; [done|]. eapply Forall_impl; [exact Hall|].
      intros patch (i & v & -> & Hi). csimpl. lia.
Qed.

Lemma scan_ascending (previous next : list Row) (n : nat) :
  ascending_replaceAt (omap (pushed_at previous next) (seq 0 n)).
Proof.
  destruct (scan_sorted previous next n 0) as [Hall Hsorted]. split; [|done].
  eapply Forall_impl; [exact Hall|]. intros patch (i & v & -> & _).
  by exists i, v.
Qed.

(** Membership in the scan, in the vocabulary of the properties. *)
Lemma elem_of_scan (previous next : list Row) (patch : Patch) :
  length previous = length next →
  patch ∈ omap (pushed_at previous next) (seq 0 (length previous)) ↔
  ∃ i n, changed_at previous next i ∧ next !! i = Some n ∧
         patch = replaceAt i n.
Proof.
  intros Hlen. rewrite list_elem_of_omap. split.
  - intros (i & _ & Hi). apply pushed_at_Some in Hi as (p & n & Hp & Hn & Hc & ->).
    exists i, n. split; [|done]. exists p, n. by rewrite <- row_changed_spec.
  - intros (i & n & (p & n' & Hp & Hn' & Hc) & Hn & ->). exists i. split.
    + apply elem_of_seq. apply lookup_lt_Some in Hp. lia.
    + apply pushed_at_Some. exists p, n. rewrite Hn in Hn'. injection Hn' as <-.
      by rewrite row_changed_spec.
Qed.

(** ** The cases of [createPatches] *)

(** With equal, non-zero lengths the answer is decided by the scan. *)
Lemma createPatches_scan (previous next : list Row) :
  length previous = length next → length previous ≠ 0 →
  createPatches (Some previous) next
  = let ops := omap (pushed_at previous next) (seq 0 (length previous)) in
    if length ops =? 0 then []
    else if length ops =? length previous then [replaceAll next]
    else ops.
Proof.
  intros Hlen Hnz. unfold createPatches. rewrite loop_fold. simpl.
  destruct (Nat.eqb_spec (length previous) 0) as [?|_]; [done|]. simpl.
  by rewrite <- Hlen, Nat.eqb_refl.
Qed.

Lemma createPatches_empty : createPatches (Some []) [] = [].
Proof. reflexivity. Qed.

Lemma createPatches_length_differs (previous next : list Row) :
  length previous ≠ length next →
  createPatches (Some previous) next = [replaceAll next].
Proof.
  intros Hne. unfold createPatches.
  destruct (Nat.eqb_spec (length previous) 0) as [Hp|Hp];
    destruct (Nat.eqb_spec (length next) 0) as [Hn|Hn]; simpl;
    destruct (Nat.eqb_spec (length previous) (length next)); simpl;
    done || lia.
Qed.

(** Every index of an equal-length pair is scanned with both rows there. *)
Lemma scanned_index (previous next : list Row) (i : nat) :
  length previous = length next → i ∈ seq 0 (length previous) →
  ∃ p n, previous !! i = Some p ∧ next !! i = Some n.
Proof.
  intros Hlen Hi. apply elem_of_seq in Hi.
  destruct (lookup_lt_is_Some_2 previous i) as [p Hp]; [lia|].
  destruct (lookup_lt_is_Some_2 next i) as [n Hn]; [lia|]. by exists p, n.
Qed.

(** ** The applier on values *)

Lemma applyPatches_app (ps qs : list Patch) (current : HeldResult) :
  applyPatches (ps ++ qs) current = applyPatches qs (applyPatches ps current).
Proof. unfold applyPatches. apply foldl_app. Qed.

Lemma length_dense (rows : list Row) : length (dense rows) = length rows.
Proof. unfold dense. apply length_fmap. Qed.

(** In range, the assignment to a copy of a dense array is the update of
    the result set at that index. *)
(** The copy of a result set is the result set. *)
Lemma spread_dense (rows : list Row) : spread_elements (dense rows) = dense rows.
Proof.
  unfold spread_elements, dense. rewrite <- list_fmap_compose.
  by apply list_fmap_ext.
Qed.

Lemma array_assign_dense (rows : list Row) (i : nat) (v : Row) :
  i < length rows → array_assign (dense rows) i v = dense (<[i := v]> rows).
Proof.
  intros Hi. unfold array_assign. rewrite length_dense.
  destruct (decide (i < length rows)); [|lia].
  unfold dense. by rewrite list_fmap_insert.
Qed.

Lemma applyPatches_replaceAt_known (rows : list Row) (i : nat) (v : Row) :
  i < length rows →
  applyPatches [replaceAt i v] (Known rows) = Known (<[i := v]> rows).
Proof.
  intros Hi. unfold applyPatches, Known. simpl.
  by rewrite spread_dense, array_assign_dense.
Qed.

(** ** Replaying a scan *)

(** Overwriting slot [k] of "the first [k] rows of [next], then the rest of
    [previous]" with row [k] of [next] moves the boundary to [k + 1]. *)
Lemma splice_step (previous next : list Row) (k : nat) (n : Row) :
  length previous = length next → next !! k = Some n →
  <[k := n]> (take k next ++ drop k previous)
  = take (S k) next ++ drop (S k) previous.
Proof.
  intros Hlen Hn. pose proof (lookup_lt_Some _ _ _ Hn) as Hk.
  destruct (lookup_lt_is_Some_2 previous k) as [p Hp]; [lia|].
  rewrite insert_app_r_alt by (rewrite length_take; lia).
  rewrite length_take, Nat.min_l, Nat.sub_diag by lia.
  rewrite (drop_S previous p k Hp), (take_S_r next k n Hn). simpl.
  by rewrite <- app_assoc.
Qed.

Lemma splice_lookup (previous next : list Row) (k : nat) :
  length previous = length next →
  (take k next ++ drop k previous) !! k = previous !! k.
Proof.
  intros Hlen. destruct (decide (k < length next)) as [Hk|Hk].
  - rewrite lookup_app_r by (rewrite length_take; lia).
    rewrite length_take, Nat.min_l, Nat.sub_diag by lia.
    rewrite lookup_drop. f_equal. lia.
  - rewrite (lookup_ge_None_2 previous) by lia.
    apply lookup_ge_None_2. rewrite length_app, length_take, length_drop. lia.
Qed.

(** Replaying the patches pushed for the first [k] indices turns the first
    [k] rows of [previous] into those of [next], as soon as the rows the
    scan passes over are the same in both. *)
Lemma replay_prefix (previous next : list Row) :
  length previous = length next →
  (∀ i p n, previous !! i = Some p → next !! i = Some n →
            row_changed p n = false → p = n) →
  ∀ k, k ≤ length previous →
    applyPatches (omap (pushed_at previous next) (seq 0 k)) (Known previous)
    = Known (take k next ++ drop k previous).
Proof.
  intros Hlen Hsame. induction k as [|k IH]; intros Hk.
  - by rewrite take_0, drop_0.
  - rewrite seq_S, omap_app, applyPatches_app, IH by lia. csimpl.
    destruct (lookup_lt_is_Some_2 previous k) as [p Hp]; [lia|].
    destruct (lookup_lt_is_Some_2 next k) as [n Hn]; [lia|].
    rewrite <- (splice_step previous next k n Hlen Hn).
    destruct (pushed_at previous next k) as [patch|] eqn:Hpush.
    + apply pushed_at_Some in Hpush as (p' & n' & _ & Hn' & _ & ->).
      rewrite Hn in Hn'. injection Hn' as <-.
      apply applyPatches_replaceAt_known.
      rewrite length_app, length_take, length_drop. lia.
    + rewrite pushed_at_None in Hpush.
      rewrite <- (Hsame k p n Hp Hn (Hpush p n Hp Hn)).
      rewrite list_insert_id; [done|]. by rewrite splice_lookup.
Qed.

Lemma replay_scan (previous next : list Row) :
  length previous = length next →
  (∀ i p n, previous !! i = Some p → next !! i = Some n →
            row_changed p n = false → p = n) →
  applyPatches (omap (pushed_at previous next) (seq 0 (length previous)))
    (Known previous)
  = Known next.
Proof.
  intros Hlen Hsame. rewrite (replay_prefix previous next Hlen Hsame) by lia.
  rewrite Hlen, firstn_all, drop_ge by lia. by rewrite app_nil_r.
Qed.

(** The round trip, for every pair in which the rows that [createPatches]
    passes over are the same in both results. *)
Lemma round_trip_unchanged_eq (previous : option (list Row)) (next : list Row) :
  (∀ rows i p n, previous = Some rows → rows !! i = Some p →
     next !! i = Some n → row_changed p n = false → p = n) →
  applyPatches (createPatches previous next) (held previous) = Known next.
Proof.
  intros Hsame. destruct previous as [previous|]; [|done].
  destruct (decide (length previous = length next)) as [Hlen|Hlen];
    [|by rewrite createPatches_length_differs].
  destruct (decide (length previous = 0)) as [Hz|Hnz].
  - destruct previous; [|done]. by destruct next.
  - assert (Hreplay := replay_scan previous next Hlen
                         (λ i p n, Hsame previous i p n eq_refl)).
    rewrite createPatches_scan by done. cbv zeta.
    destruct (Nat.eqb_spec
                (length (omap (pushed_at previous next)
                           (seq 0 (length previous)))) 0) as [Hnone|_].
    + apply nil_length_inv in Hnone. by rewrite Hnone in Hreplay.
    + by destruct (_ =? length previous).
Qed.

(** ** The applier on the store *)

(** Copy, then write to the copy: the store gains one array, at a reference
    it did not have, and loses nothing. *)
Lemma store_reducer_replaceAt (h : Store.heap) (a : Store.loc)
    (elems : list Slot) (i : nat) (v : Row) :
  h !! a = Some elems →
  Store.reducer (Some a, h) (Store.replaceAt i v)
  = (Some (fresh (dom h)),
     <[fresh (dom h) := array_assign (spread_elements elems) i v]> h).
Proof.
  intros Ha. unfold Store.reducer, Store.spread, Store.assign. rewrite Ha.
  by rewrite alter_insert_eq.
Qed.

Lemma fresh_unallocated (h : Store.heap) : h !! fresh (dom h) = None.
Proof. apply not_elem_of_dom, is_fresh. Qed.

Lemma patch_in_weaken (h h' : Store.heap) (sp : Store.Patch) (p : Patch) :
  h ⊆ h' → patch_in h sp p → patch_in h' sp p.
Proof.
  intros Hsub Hp. destruct Hp as [l rows Hl| |]; constructor.
  by eapply lookup_weaken.
Qed.

(** One step on the store is the step on values, and keeps every array
    that was there. *)
Lemma store_reducer_refines (h : Store.heap) (sp : Store.Patch) (p : Patch)
    (a : option Store.loc) (v : HeldResult) :
  patch_in h sp p → held_in h a v →
  h ⊆ (Store.reducer (a, h) sp).2 ∧
  held_in (Store.reducer (a, h) sp).2 (Store.reducer (a, h) sp).1 (reducer v p).
Proof.
  intros Hp Ha. destruct Hp as [l rows Hl|i row|].
  - done.
  - destruct a as [a|], v as [v|]; try done.
    rewrite (store_reducer_replaceAt h a v i row Ha). simpl. split.
    + apply insert_subseteq, fresh_unallocated.
    + by rewrite lookup_insert_eq.
  - done.
Qed.

Lemma store_applyPatches_refines (sps : list Store.Patch) (ps : list Patch) :
  ∀ (h : Store.heap) (a : option Store.loc) (v : HeldResult),
    Forall2 (patch_in h) sps ps → held_in h a v →
    h ⊆ (Store.applyPatches sps a h).2 ∧
    held_in (Store.applyPatches sps a h).2 (Store.applyPatches sps a h).1
      (applyPatches ps v).
Proof.
  revert ps. induction sps as [|sp sps IH]; intros ps h a v Hps Ha.
  - apply Forall2_nil_inv_l in Hps as ->. done.
  - apply Forall2_cons_inv_l in Hps as (p & ps' & Hp & Hps & ->).
    destruct (store_reducer_refines h sp p a v Hp Ha) as [Hsub Hheld].
    unfold Store.applyPatches, applyPatches in *.
    change (foldl Store.reducer (a, h) (sp :: sps))
      with (foldl Store.reducer (Store.reducer (a, h) sp) sps).
    change (foldl reducer v (p :: ps'))
      with (foldl reducer (reducer v p) ps').
    destruct (Store.reducer (a, h) sp) as [a1 h1]. simpl in Hsub, Hheld.
    destruct (IH ps' h1 a1 (reducer v p)) as [Hsub' Hheld']; [|done|].
    + eapply Forall2_impl; [exact Hps|]. intros ? ?. by apply patch_in_weaken.
    + split; [|done]. by etrans.
Qed.

(** ** The scan in the vocabulary of the properties *)

Lemma pushed_at_changed (previous next : list Row) (i : nat) :
  is_Some (pushed_at previous next i) ↔ changed_at previous next i.
Proof.
  split.
  - intros [patch (p & n & Hp & Hn & Hc & _)%pushed_at_Some].
    exists p, n. by rewrite <- row_changed_spec.
  - intros (p & n & Hp & Hn & Hc%row_changed_spec).
    exists (replaceAt i n). apply pushed_at_Some. by exists p, n.
Qed.

Lemma scan_length_zero (previous next : list Row) :
  length previous = length next →
  length (omap (pushed_at previous next) (seq 0 (length previous))) = 0 ↔
  ∀ i, ¬ changed_at previous next i.
Proof.
  intros Hlen. rewrite omap_length_zero. split.
  - intros Hnone i Hi. pose proof Hi as (p & _ & Hp & _).
    apply pushed_at_changed in Hi as [patch Hpatch].
    rewrite Hnone in Hpatch; [done|].
    apply elem_of_seq. apply lookup_lt_Some in Hp. lia.
  - intros Hnone i _. destruct (pushed_at previous next i) eqn:Hi; [|done].
    destruct (Hnone i). apply pushed_at_changed. by rewrite Hi.
Qed.

Lemma scan_length_full (previous next : list Row) :
  length (omap (pushed_at previous next) (seq 0 (length previous)))
  = length previous ↔
  ∀ i, i < length previous → changed_at previous next i.
Proof.
  pose proof (omap_length_full (pushed_at previous next)
                (seq 0 (length previous))) as Hfull.
  rewrite length_seq in Hfull. rewrite Hfull. split.
  - intros Hall i Hi. apply pushed_at_changed, Hall, elem_of_seq. lia.
  - intros Hall i Hi%elem_of_seq. apply pushed_at_changed, Hall. lia.
Qed.

Lemma index_lt_irrefl (patch : Patch) : ¬ index_lt patch patch.
Proof. destruct patch; simpl; lia. Qed.

(** Strictly ascending indices leave no room for a repeated patch. *)
Lemma ascending_NoDup (patches : list Patch) :
  ascending_replaceAt patches → NoDup patches.
Proof.
  intros [_ Hsorted]. induction Hsorted as [|patch patches _ IH Hlt].
  - constructor.
  - constructor; [|done]. intros Hin.
    rewrite Forall_forall in Hlt. by apply (index_lt_irrefl patch), Hlt.
Qed.

(** The answers of [createPatches], case by case. *)
Lemma createPatches_cases (previous : option (list Row)) (next : list Row) :
  createPatches previous next = [] ∨
  createPatches previous next = [replaceAll next] ∨
  ∃ rows, previous = Some rows ∧ length rows = length next ∧
    createPatches previous next
    = omap (pushed_at rows next) (seq 0 (length rows)) ∧
    0 < length (createPatches previous next) < length rows.
Proof.
  destruct previous as [previous|]; [|by right; left].
  destruct (decide (length previous = length next)) as [Hlen|Hlen];
    [|right; left; by apply createPatches_length_differs].
  destruct (decide (length previous = 0)) as [Hz|Hnz].
  { left. destruct previous; [|done]. by destruct next. }
  rewrite createPatches_scan by done. cbv zeta.
  pose proof (omap_length_le (pushed_at previous next)
                (seq 0 (length previous))) as Hle.
  rewrite length_seq in Hle.
  destruct (Nat.eqb_spec
              (length (omap (pushed_at previous next)
                         (seq 0 (length previous)))) 0) as [_|Hsome];
    [by left|].
  destruct (Nat.eqb_spec
              (length (omap (pushed_at previous next)
                         (seq 0 (length previous)))) (length previous))
    as [_|Hpart]; [by right; left|].
  right; right. exists previous. repeat split; [done|lia|lia].
Qed.

(** ** Sample rows *)

Lemma lookup_rowA (x : float) (key : string) (v : SqliteValue) :
  rowA x !! key = Some v ↔ key = "a" ∧ v = Num x.
Proof.
  unfold rowA. rewrite lookup_singleton_Some. split; by intros [<- <-].
Qed.

Lemma changed_rowA (x y : float) :
  PrimFloat.eqb x y = false → RowChanged (rowA x) (rowA y).
Proof.
  intros Hxy. exists "a", (Num x). split; [by apply lookup_rowA|].
  replace (rowA y !! "a") with (Some (Num y)) by (symmetry; by apply lookup_rowA).
  simpl. by rewrite Hxy.
Qed.

Lemma unchanged_rowA (x y : float) :
  PrimFloat.eqb x y = true → ¬ RowChanged (rowA x) (rowA y).
Proof.
  intros Hxy (key & v & [-> ->]%lookup_rowA & Hne).
  replace (rowA y !! "a") with (Some (Num y)) in Hne
    by (symmetry; by apply lookup_rowA).
  simpl in Hne. by rewrite Hxy in Hne.
Qed.

Lemma aligned_rowA (x y : float) :
  (PrimFloat.eqb x y = true → x = y) → row_aligned (rowA x) (rowA y).
Proof.
  intros Hxy. split.
  - unfold rowA. by rewrite !dom_singleton_L.
  - intros key v w [-> ->]%lookup_rowA [_ ->]%lookup_rowA He.
    f_equal. by apply Hxy.
Qed.

(** * Theorems *)

(** ** The differencer *)

(** C4 (unknown previous).  With no previous result, [createPatches]
    answers with exactly one patch, the replacement of the whole result by
    [next]. *)
Theorem unknown_previous (next : list Row) :
  createPatches None next = [replaceAll next].
Proof. reflexivity. Qed.

(** C5 (length-change collapse).  When the two results differ in length,
    [createPatches] answers with exactly [[replaceAll next]]; in particular
    no patch of the answer is a [replaceAt]. *)
Theorem length_change_collapse (previous next : list Row) :
  length previous ≠ length next →
  createPatches (Some previous) next = [replaceAll next] ∧
  Forall (λ patch, ¬ is_replaceAt patch) (createPatches (Some previous) next).
Proof.
  intros Hne. rewrite createPatches_length_differs by done. split; [done|].
  constructor; [|constructor]. by intros (i & v & ?).
Qed.

Lemma length_change_collapse_witness :
  length [rowA 1] ≠ length (@nil Row) ∧
  createPatches (Some [rowA 1]) [] = [replaceAll []] ∧
  Forall (λ patch, ¬ is_replaceAt patch) (createPatches (Some [rowA 1]) []).
Proof.
  split; [simpl; lia|]. apply (length_change_collapse [rowA 1] []). simpl; lia.
Defined.

(** C6 (no-change no-op).  When the two results have the same length and
    every field of every previous row is strictly equal to the field of
    that name in the next row at the same index, [createPatches] answers
    with no patch at all; two empty results are the case of length zero. *)
Theorem no_change_noop (previous next : list Row) :
  length previous = length next →
  rows_fieldwise_equal previous next →
  createPatches (Some previous) next = [].
Proof.
  intros Hlen Heq.
  destruct (decide (length previous = 0)) as [Hz|Hnz].
  { destruct previous; [|done]. by destruct next. }
  rewrite createPatches_scan by done. cbv zeta.
  assert (length (omap (pushed_at previous next) (seq 0 (length previous))) = 0)
    as ->; [|done].
  apply scan_length_zero; [done|].
  intros i (p & n & Hp & Hn & key & x & Hx & Hne).
  destruct (Heq i p n key x Hp Hn Hx) as (y & Hy & He).
  rewrite Hy in Hne. simpl in Hne. by rewrite He in Hne.
Qed.

Lemma no_change_noop_witness :
  createPatches (Some sample_previous) sample_previous = [] ∧
  createPatches (Some []) [] = [].
Proof.
  split.
  - apply (no_change_noop sample_previous sample_previous); [reflexivity|].
    intros i p n key x Hp Hn Hx. rewrite Hp in Hn. injection Hn as <-.
    exists x. split; [done|].
    destruct i as [|[|[|i]]]; simpl in Hp; [| | |done];
      injection Hp as <-; apply lookup_rowA in Hx as [_ ->];
      vm_compute; reflexivity.
  - apply (no_change_noop [] []); [reflexivity|].
    intros i p n key x Hp. by destruct i.
Defined.

(** C3 (all-changed collapse).  When the two results have the same
    non-zero length and every row is changed, [createPatches] answers with
    the single patch [replaceAll next], not with one [replaceAt] per row. *)
Theorem all_changed_collapse (previous next : list Row) :
  length previous = length next → length previous ≠ 0 →
  (∀ i, i < length previous → changed_at previous next i) →
  createPatches (Some previous) next = [replaceAll next].
Proof.
  intros Hlen Hnz Hall. rewrite createPatches_scan by done. cbv zeta.
  apply scan_length_full in Hall. rewrite Hall, Nat.eqb_refl.
  by destruct (Nat.eqb_spec (length previous) 0).
Qed.

Lemma all_changed_collapse_witness :
  createPatches (Some [rowA 1; rowA 2]) [rowA 3; rowA 4]
  = [replaceAll [rowA 3; rowA 4]].
Proof.
  apply (all_changed_collapse [rowA 1; rowA 2] [rowA 3; rowA 4]);
    [reflexivity|simpl; lia|].
  intros i Hi. destruct i as [|[|i]]; [| |simpl in Hi; lia].
  - exists (rowA 1), (rowA 3). repeat split. by apply changed_rowA.
  - exists (rowA 2), (rowA 4). repeat split. by apply changed_rowA.
Defined.

(** C2 (partial-change precision).  When the two results have the same
    length and at least one row, but not every row, is changed, the answer
    of [createPatches] consists of [replaceAt] patches in strictly
    ascending index order, without repetition, and a patch is in it exactly
    when it is [replaceAt i next[i]] for a changed row [i].  In particular
    the answer for [{a:1},{a:2},{a:3}] against [{a:1},{a:9},{a:3}] is
    [replaceAt 1 {a:9}] alone. *)
Theorem partial_change_precision :
  (∀ previous next : list Row,
     length previous = length next →
     (∃ i, changed_at previous next i) →
     (∃ i, i < length previous ∧ ¬ changed_at previous next i) →
     let patches := createPatches (Some previous) next in
     ascending_replaceAt patches ∧ NoDup patches ∧
     ∀ patch, patch ∈ patches ↔
       ∃ i n, changed_at previous next i ∧ next !! i = Some n ∧
              patch = replaceAt i n) ∧
  createPatches (Some sample_previous) sample_next = [replaceAt 1 (rowA 9)].
Proof.
  split; [|by vm_compute].
  intros previous next Hlen [i Hi] [j [Hj Hnj]].
  rewrite createPatches_scan by (done || lia). cbv zeta.
  destruct (Nat.eqb_spec
              (length (omap (pushed_at previous next)
                         (seq 0 (length previous)))) 0) as [Hnone|_].
  { destruct (proj1 (scan_length_zero previous next Hlen) Hnone i Hi). }
  destruct (Nat.eqb_spec
              (length (omap (pushed_at previous next)
                         (seq 0 (length previous)))) (length previous))
    as [Hfull|_].
  { destruct Hnj. by apply (proj1 (scan_length_full previous next) Hfull). }
  pose proof (scan_ascending previous next (length previous)) as Hasc.
  split; [done|]. split; [by apply ascending_NoDup|].
  intros patch. by apply elem_of_scan.
Qed.

Lemma partial_change_precision_witness :
  let patches := createPatches (Some sample_previous) sample_next in
  ascending_replaceAt patches ∧ NoDup patches ∧
  ∀ patch, patch ∈ patches ↔
    ∃ i n, changed_at sample_previous sample_next i ∧
           sample_next !! i = Some n ∧ patch = replaceAt i n.
Proof.
  apply (proj1 partial_change_precision sample_previous sample_next).
  - reflexivity.
  - exists 1, (rowA 2), (rowA 9). repeat split. by apply changed_rowA.
  - exists 0. split; [simpl; lia|].
    intros (p & n & [= <-] & [= <-] & Hc). by apply unchanged_rowA in Hc.
Defined.

(** C9 (no purge from the differencer).  Whatever the two results, no
    patch in the answer of [createPatches] is a [purge]. *)
Theorem createPatches_never_purge (previous : option (list Row))
    (next : list Row) :
  purge ∉ createPatches previous next.
Proof.
  destruct (createPatches_cases previous next)
    as [->|[->|(rows & _ & _ & Heq & _)]].
  - apply not_elem_of_nil.
  - by intros [=]%list_elem_of_singleton.
  - rewrite Heq. intros Hin.
    destruct (scan_ascending rows next (length rows)) as [Hall _].
    rewrite Forall_forall in Hall. by destruct (Hall purge Hin) as (i & v & ?).
Qed.

(** C10 (shape of an answer).  The answer of [createPatches] has exactly
    one of three shapes: it is empty; or it is the single patch
    [replaceAll next]; or it is a non-empty sequence of [replaceAt] patches
    with strictly ascending indices, fewer than the common length of the
    two results.  So a [replaceAll] patch never comes with another patch. *)
Theorem createPatches_shape (previous : option (list Row)) (next : list Row) :
  let patches := createPatches previous next in
  (patches = [] ∨ patches = [replaceAll next] ∨
   shape_replaceAt previous next patches) ∧
  ¬ (patches = [] ∧ patches = [replaceAll next]) ∧
  ¬ (patches = [] ∧ shape_replaceAt previous next patches) ∧
  ¬ (patches = [replaceAll next] ∧ shape_replaceAt previous next patches) ∧
  ∀ value, replaceAll value ∈ patches → patches = [replaceAll next].
Proof.
  cbv zeta.
  assert (Hexcl : ∀ value, replaceAll value ∈ createPatches previous next →
            ¬ shape_replaceAt previous next (createPatches previous next)).
  { intros value Hin (_ & [Hall _] & _). rewrite Forall_forall in Hall.
    by destruct (Hall _ Hin) as (i & v & ?). }
  repeat split.
  - destruct (createPatches_cases previous next)
      as [Hnil|[Hall|(rows & Hprev & Hlen & Heq & Hpos & Hlt)]];
      [by left|by right; left|].
    right; right. split; [|split].
    + intros Hnil. rewrite Hnil in Hpos. simpl in Hpos. lia.
    + rewrite Heq. apply scan_ascending.
    + by exists rows.
  - intros [Hnil Hall]. by rewrite Hnil in Hall.
  - by intros [Hnil [Hne _]].
  - intros [Hall Hshape]. apply (Hexcl next); [|done].
    rewrite Hall. apply list_elem_of_here.
  - intros value Hin.
    destruct (createPatches_cases previous next)
      as [Hnil|[Hall|(rows & Hprev & Hlen & Heq & Hpos & Hlt)]]; [|done|].
    + rewrite Hnil in Hin. by apply not_elem_of_nil in Hin.
    + destruct (Hexcl value Hin). split; [|split].
      * intros Hnil. rewrite Hnil in Hpos. simpl in Hpos. lia.
      * rewrite Heq. apply scan_ascending.
      * by exists rows.
Qed.

(** ** The applier *)

(** C7 (unknown and unconditional patches).  On an unknown held result a
    [replaceAt] patch, and any sequence of them, leaves the result unknown;
    on every held result [replaceAll value] gives [value] and [purge] gives
    unknown, also after any earlier patches; hence two purges in a row give
    unknown. *)
Theorem apply_unknown_and_unconditional :
  (∀ index value, applyPatches [replaceAt index value] Unknown = Unknown) ∧
  (∀ edits : list (nat * Row),
     applyPatches ((λ e, replaceAt e.1 e.2) <$> edits) Unknown = Unknown) ∧
  (∀ current value, applyPatches [replaceAll value] current = Known value) ∧
  (∀ current, applyPatches [purge] current = Unknown) ∧
  (∀ before current value,
     applyPatches (before ++ [replaceAll value]) current = Known value) ∧
  (∀ before current, applyPatches (before ++ [purge]) current = Unknown) ∧
  (∀ current, applyPatches [purge; purge] current = Unknown).
Proof.
  repeat split; try done.
  - intros edits. induction edits as [|[i v] edits IH]; [done|exact IH].
  - intros before current value. by rewrite applyPatches_app.
  - intros before current. by rewrite applyPatches_app.
Qed.

(** C8 (frame of [replaceAt]).  Let the store hold the result set [current]
    at the reference [cur], and let [i] be an index of [current].  Applying
    [replaceAt i v] to [cur] returns a reference to an array of the same
    length as [current], whose row at [i] is [v] and whose other rows are
    those of [current]; the array behind [cur] is as it was, and so is
    every other array of the store.  The result is the one the applier on
    values computes. *)
Theorem replaceAt_frame (h : Store.heap) (cur : Store.loc)
    (current : list Row) (i : nat) (v : Row) :
  h !! cur = Some (dense current) → i < length current →
  ∃ (r : Store.loc) (h' : Store.heap) (result : list Row),
    Store.applyPatches [Store.replaceAt i v] (Some cur) h = (Some r, h') ∧
    h' !! r = Some (dense result) ∧
    length result = length current ∧
    result !! i = Some v ∧
    (∀ j, j ≠ i → result !! j = current !! j) ∧
    h' !! cur = Some (dense current) ∧
    h ⊆ h' ∧
    applyPatches [replaceAt i v] (Known current) = Known result.
Proof.
  intros Hcur Hi.
  exists (fresh (dom h)),
         (<[fresh (dom h) := dense (<[i := v]> current)]> h),
         (<[i := v]> current).
  pose proof (fresh_unallocated h) as Hfresh.
  assert (Hsub : h ⊆ <[fresh (dom h) := dense (<[i := v]> current)]> h)
    by by apply insert_subseteq.
  repeat split.
  - change (Store.applyPatches [Store.replaceAt i v] (Some cur) h)
      with (Store.reducer (Some cur, h) (Store.replaceAt i v)).
    by rewrite (store_reducer_replaceAt h cur (dense current) i v Hcur),
               spread_dense, array_assign_dense.
  - apply lookup_insert_eq.
  - apply length_insert.
  - by apply list_lookup_insert_eq.
  - intros j Hj. by apply list_lookup_insert_ne.
  - by eapply lookup_weaken.
  - done.
  - by apply applyPatches_replaceAt_known.
Qed.

Lemma replaceAt_frame_witness :
  ∃ (r : Store.loc) (h' : Store.heap) (result : list Row),
    Store.applyPatches [Store.replaceAt 1 (rowA 9)] (Some 5%positive)
      sample_heap = (Some r, h') ∧
    h' !! r = Some (dense result) ∧
    length result = length sample_previous ∧
    result !! 1 = Some (rowA 9) ∧
    (∀ j, j ≠ 1 → result !! j = sample_previous !! j) ∧
    h' !! 5%positive = Some (dense sample_previous) ∧
    sample_heap ⊆ h' ∧
    applyPatches [replaceAt 1 (rowA 9)] (Known sample_previous) = Known result.
Proof.
  apply (replaceAt_frame sample_heap 5%positive sample_previous 1 (rowA 9)).
  - reflexivity.
  - simpl. lia.
Defined.

(** ** Round trip *)

(** A row of [next] with a field name that the row of [previous] lacks is
    passed over by [createPatches]: the holder keeps the previous row. *)
Lemma round_trip_extra_field :
  applyPatches (createPatches (Some [rowA 1]) [rowAB 1 2]) (held (Some [rowA 1]))
  ≠ Known [rowAB 1 2].
Proof.
  assert (createPatches (Some [rowA 1]) [rowAB 1 2] = []) as -> by by vm_compute.
  intros Heq.
  apply (f_equal (λ r : HeldResult, match r with
                                    | Some (SlotRow row :: _) => row !! "b"
                                    | _ => None
                                    end)) in Heq.
  vm_compute in Heq. discriminate.
Qed.

(** A field that goes from +0 to -0 is strictly equal before and after, so
    its row is passed over as well. *)
Example round_trip_signed_zero :
  applyPatches (createPatches (Some [rowA 0]) [rowA (-0)]) (held (Some [rowA 0]))
  ≠ Known [rowA (-0)].
Proof.
  assert (createPatches (Some [rowA 0]) [rowA (-0)] = []) as -> by by vm_compute.
  intros Heq.
  apply (f_equal (λ r : HeldResult,
                    match r with
                    | Some (SlotRow row :: _) =>
                        match row !! "a" with
                        | Some (Num x) => Some (classify x)
                        | _ => None
                        end
                    | _ => None
                    end)) in Heq.
  vm_compute in Heq. discriminate.
Qed.

(** A NaN field is strictly unequal to itself: its row always counts as
    changed. *)
Example nan_row_changed :
  createPatches (Some [rowA nan; rowA 1]) [rowA nan; rowA 1]
  = [replaceAt 0 (rowA nan)].
Proof. by vm_compute. Qed.

(** C1 (apply round trip), as amended.  Let [previous] be unknown or a
    result set, and [next] a result set such that, when [previous] is a
    result set of the same length as [next], at every index the row is
    changed or else the next row has no field name beyond those of the
    previous row and no field is strictly equal and yet distinct in the two
    rows.  Then applying the answer of [createPatches] to a holder of
    [previous] gives exactly [next]. *)
Theorem apply_round_trip (previous : option (list Row)) (next : list Row) :
  aligned_when_same_length previous next →
  applyPatches (createPatches previous next) (held previous) = Known next.
Proof.
  intros Haligned. destruct previous as [rows|]; [|done].
  destruct (decide (length rows = length next)) as [Hlen|Hlen];
    [|by rewrite createPatches_length_differs].
  apply round_trip_unchanged_eq.
  intros rows' i p n [= <-] Hp Hn Hun.
  destruct (Haligned rows eq_refl Hlen rows i p n eq_refl Hp Hn) as [Hc|Ha].
  - apply row_changed_spec in Hc. congruence.
  - by apply row_unchanged_eq.
Qed.

Lemma apply_round_trip_witness :
  applyPatches (createPatches (Some sample_previous) sample_next)
    (held (Some sample_previous))
  = Known sample_next ∧
  applyPatches (createPatches (Some [rowA 1]) [rowAB 1 2; rowA 5])
    (held (Some [rowA 1]))
  = Known [rowAB 1 2; rowA 5].
Proof.
  split.
  - apply (apply_round_trip (Some sample_previous) sample_next).
    intros rows' [= <-] _ rows i p n [= <-] Hp Hn.
    destruct i as [|[|[|i]]]; simpl in Hp, Hn; [| | |done];
      injection Hp as <-; injection Hn as <-.
    + right. by apply aligned_rowA.
    + left. by apply changed_rowA.
    + right. by apply aligned_rowA.
  - apply (apply_round_trip (Some [rowA 1]) [rowAB 1 2; rowA 5]).
    intros rows' [= <-] Hlen. simpl in Hlen. lia.
Defined.

(** * Further properties of the differencer and the applier *)

(** ** Helper lemmas *)

Lemma dense_inj (rows rows' : list Row) : dense rows = dense rows' → rows = rows'.
Proof.
  unfold dense. revert rows'.
  induction rows as [|row rows IH]; intros [|row' rows']; try done.
  intros [= -> Heq]. f_equal. by apply IH.
Qed.

Lemma Known_inj (rows rows' : list Row) : Known rows = Known rows' → rows = rows'.
Proof. intros [= Heq]. by apply dense_inj. Qed.

Lemma changed_at_lt (previous next : list Row) (i : nat) :
  changed_at previous next i → i < length previous.
Proof. intros (p & _ & Hp & _). by apply lookup_lt_Some in Hp. Qed.

(** The kinds of patches in an answer. *)
Lemma createPatches_kinds (previous : option (list Row)) (next : list Row) :
  createPatches previous next = [] ∨
  createPatches previous next = [replaceAll next] ∨
  (createPatches previous next ≠ [] ∧
   Forall is_replaceAt (createPatches previous next)).
Proof.
  destruct (createPatches_cases previous next)
    as [Hnil|[Hall|(rows & _ & _ & Heq & Hpos & _)]]; [by left|by right; left|].
  right; right. split.
  - intros Hnil. rewrite Hnil in Hpos. simpl in Hpos. lia.
  - rewrite Heq. apply scan_ascending.
Qed.

(** The answer is empty exactly when no row is changed. *)
Lemma createPatches_nil_iff (previous next : list Row) :
  length previous = length next →
  createPatches (Some previous) next = [] ↔ ∀ i, ¬ changed_at previous next i.
Proof.
  intros Hlen. destruct (decide (length previous = 0)) as [Hz|Hnz].
  { destruct previous; [|done]. destruct next; [|done]. split; [|done].
    intros _ i Hi%changed_at_lt. simpl in Hi. lia. }
  rewrite createPatches_scan by done. cbv zeta.
  rewrite <- (scan_length_zero previous next Hlen).
  destruct (Nat.eqb_spec
              (length (omap (pushed_at previous next)
                         (seq 0 (length previous)))) 0) as [Hnone|Hsome];
    [done|].
  destruct (_ =? length previous); split; try done.
  intros Hnil. by rewrite Hnil in Hsome.
Qed.

(** The answer is the full replacement exactly when there is nothing to
    compare with, the lengths differ, or every row is changed. *)
Lemma createPatches_replaceAll_iff (previous next : list Row) :
  createPatches (Some previous) next = [replaceAll next] ↔
  length previous ≠ length next ∨
  (length previous ≠ 0 ∧ ∀ i, i < length previous → changed_at previous next i).
Proof.
  destruct (decide (length previous = length next)) as [Hlen|Hlen];
    [|rewrite createPatches_length_differs by done; split; [by left|done]].
  destruct (decide (length previous = 0)) as [Hz|Hnz].
  { destruct previous; [|done]. destruct next; [|done].
    split; [done|]. by intros [?|[? _]]. }
  rewrite createPatches_scan by done. cbv zeta.
  rewrite <- (scan_length_full previous next).
  pose proof (scan_ascending previous next (length previous)) as [Hkind _].
  destruct (Nat.eqb_spec
              (length (omap (pushed_at previous next)
                         (seq 0 (length previous)))) 0) as [Hnone|Hsome].
  { split; [done|]. intros [?|[_ Hfull]]; [done|]. congruence. }
  destruct (Nat.eqb_spec
              (length (omap (pushed_at previous next)
                         (seq 0 (length previous)))) (length previous))
    as [Hfull|Hpart].
  { split; [|done]. intros _. by right. }
  split.
  - intros Heq. rewrite Heq in Hkind.
    apply Forall_cons_1 in Hkind as [(i & v & [=]) _].
  - intros [?|[_ Hfull]]; done.
Qed.

Lemma applyPatches_replaceAt_unknown (patches : list Patch) :
  Forall is_replaceAt patches → applyPatches patches Unknown = Unknown.
Proof.
  induction 1 as [|patch patches (i & v & ->) _ IH]; [done|exact IH].
Qed.

Lemma applyPatches_known_is_Some (patches : list Patch) :
  purge ∉ patches → ∀ a, is_Some (applyPatches patches (Some a)).
Proof.
  induction patches as [|patch patches IH]; intros Hno a; [by eexists|].
  apply not_elem_of_cons in Hno as [Hne Hno].
  destruct patch as [value|i v|]; [| |done]; by apply IH.
Qed.

(** Replaying the patches pushed for the first [k] indices on a holder of
    the same length as [previous], which need not hold [previous]. *)
Lemma replay_prefix_holder (previous next cur : list Row) :
  length previous = length next → length cur = length previous →
  ∀ k, k ≤ length previous →
    ∃ r, applyPatches (omap (pushed_at previous next) (seq 0 k)) (Known cur)
         = Known r ∧
         length r = length cur ∧
         (∀ i, i < k → changed_at previous next i → r !! i = next !! i) ∧
         (∀ i, k ≤ i ∨ ¬ changed_at previous next i → r !! i = cur !! i).
Proof.
  intros Hlen Hcur. induction k as [|k IH]; intros Hk.
  - exists cur. split_and!; [done|done|intros; lia|done].
  - destruct IH as (r & Hr & Hlr & Hnew & Hold); [lia|].
    rewrite seq_S, omap_app, applyPatches_app, Hr. csimpl.
    destruct (pushed_at previous next k) as [patch|] eqn:Hpush.
    + pose proof (proj1 (pushed_at_changed previous next k)
                    (mk_is_Some _ _ Hpush)) as Hchanged.
      apply pushed_at_Some in Hpush as (p & n & _ & Hn & _ & ->).
      exists (<[k := n]> r). split_and!.
      * apply applyPatches_replaceAt_known. lia.
      * by rewrite length_insert.
      * intros i Hi Hc. destruct (decide (i = k)) as [->|Hne].
        -- rewrite list_lookup_insert_eq by lia. done.
        -- rewrite list_lookup_insert_ne by done. apply Hnew; [lia|done].
      * intros i Hi. rewrite list_lookup_insert_ne; [apply Hold|].
        -- destruct Hi; [left; lia|by right].
        -- intros <-. destruct Hi; [lia|done].
    + assert (Hun : ¬ changed_at previous next k).
      { intros [patch Hpatch]%pushed_at_changed. congruence. }
      exists r. split_and!; [done|done| |].
      * intros i Hi Hc. apply Hnew; [|done].
        destruct (decide (i = k)) as [->|]; [done|lia].
      * intros i Hi. apply Hold. destruct Hi; [left; lia|by right].
Qed.

(** What a holder of the same length as [previous] ends with. *)
Lemma apply_diff_pointwise (previous next cur : list Row) :
  length previous = length next → length cur = length previous →
  ∃ r, applyPatches (createPatches (Some previous) next) (Known cur) = Known r ∧
       length r = length next ∧
       (∀ i, changed_at previous next i → r !! i = next !! i) ∧
       (∀ i, ¬ changed_at previous next i → r !! i = cur !! i).
Proof.
  intros Hlen Hcur.
  destruct (createPatches_cases (Some previous) next)
    as [Hnil|[Hall|(rows & [= <-] & _ & Heq & _)]].
  - rewrite Hnil. exists cur. split_and!; [done|lia| |done].
    intros i Hi. by destruct (proj1 (createPatches_nil_iff _ _ Hlen) Hnil i).
  - rewrite Hall. exists next. split_and!; [done|done|done|].
    apply createPatches_replaceAll_iff in Hall as [?|[_ Hfull]]; [done|].
    intros i Hi.
    destruct (decide (i < length previous)) as [Hlt|Hge];
      [destruct (Hi (Hfull i Hlt))|].
    rewrite !lookup_ge_None_2; [done|lia|lia].
  - rewrite Heq.
    destruct (replay_prefix_holder previous next cur Hlen Hcur
                (length previous)) as (r & Hr & Hlr & Hnew & Hold); [lia|].
    exists r. split_and!; [done|lia| |].
    + intros i Hi. apply Hnew; [by eapply changed_at_lt|done].
    + intros i Hi. apply Hold. by right.
Qed.

Lemma aligned_unchanged_eq (previous : option (list Row)) (next : list Row) :
  rows_aligned previous next →
  ∀ rows i p n, previous = Some rows → rows !! i = Some p →
    next !! i = Some n → row_changed p n = false → p = n.
Proof.
  intros Haligned rows i p n Hprev Hp Hn Hun.
  destruct (Haligned rows i p n Hprev Hp Hn) as [Hc|Ha].
  - apply row_changed_spec in Hc. congruence.
  - by apply row_unchanged_eq.
Qed.

(** ** When the answer is empty, and when it is the full replacement *)

(** X1.  [createPatches] answers with no patch exactly when [previous] is
    a result set of the same length as [next] in which no row is changed. *)
Theorem empty_answer_iff (previous : option (list Row)) (next : list Row) :
  createPatches previous next = [] ↔
  ∃ rows, previous = Some rows ∧ length rows = length next ∧
          ∀ i, ¬ changed_at rows next i.
Proof.
  split.
  - destruct previous as [rows|]; [|done]. intros Hnil. exists rows.
    destruct (decide (length rows = length next)) as [Hlen|Hlen].
    + split_and!; [done|done|]. by apply createPatches_nil_iff.
    + by rewrite createPatches_length_differs in Hnil.
  - intros (rows & -> & Hlen & Hnone). by apply createPatches_nil_iff.
Qed.

(** X2.  [createPatches] answers with the replacement of the whole result
    exactly when [previous] is unknown, or the lengths differ, or the
    results are not empty and every row is changed. *)
Theorem replaceAll_answer_iff (previous : option (list Row)) (next : list Row) :
  createPatches previous next = [replaceAll next] ↔
  previous = None ∨
  ∃ rows, previous = Some rows ∧
    (length rows ≠ length next ∨
     (length rows ≠ 0 ∧ ∀ i, i < length rows → changed_at rows next i)).
Proof.
  destruct previous as [rows|]; [|split; [by left|done]].
  rewrite createPatches_replaceAll_iff. split.
  - intros H. right. by exists rows.
  - by intros [?|(rows' & [= <-] & H)].
Qed.

(** X3.  Every [replaceAt] patch of an answer is sound: its index is an
    index of both results, which have the same length, its value is the row
    of [next] at that index, and the row of [previous] there is changed. *)
Theorem replaceAt_patch_sound (previous : option (list Row)) (next : list Row)
    (i : nat) (v : Row) :
  replaceAt i v ∈ createPatches previous next →
  ∃ rows p, previous = Some rows ∧ length rows = length next ∧
            rows !! i = Some p ∧ next !! i = Some v ∧ RowChanged p v.
Proof.
  intros Hin.
  destruct (createPatches_cases previous next)
    as [Hnil|[Hall|(rows & -> & Hlen & Heq & _)]].
  - rewrite Hnil in Hin. by apply not_elem_of_nil in Hin.
  - rewrite Hall in Hin. by apply list_elem_of_singleton in Hin.
  - rewrite Heq in Hin.
    apply (elem_of_scan rows next _ Hlen) in Hin
      as (j & n & (p & n' & Hp & Hn' & Hc) & Hn & [= -> ->]).
    exists rows, p. rewrite Hn in Hn'. injection Hn' as <-. done.
Qed.

Lemma replaceAt_patch_sound_witness :
  ∃ rows p, Some sample_previous = Some rows ∧
            length rows = length sample_next ∧
            rows !! 1 = Some p ∧ sample_next !! 1 = Some (rowA 9) ∧
            RowChanged p (rowA 9).
Proof.
  apply (replaceAt_patch_sound (Some sample_previous) sample_next 1 (rowA 9)).
  vm_compute createPatches. apply list_elem_of_here.
Defined.

(** ** What a holder ends with *)

(** X4.  Applying an answer to the holder of [previous] gives [next] if
    and only if, when the lengths agree, every row that is not changed is
    the same row in both results. *)
Theorem round_trip_iff (previous next : list Row) :
  applyPatches (createPatches (Some previous) next) (Known previous) = Known next
  ↔ (length previous = length next →
     ∀ i p n, previous !! i = Some p → next !! i = Some n →
              ¬ RowChanged p n → p = n).
Proof.
  split.
  - intros Hrt Hlen i p n Hp Hn Hun.
    destruct (apply_diff_pointwise previous next previous Hlen eq_refl)
      as (r & Hr & _ & _ & Hold).
    rewrite Hr in Hrt. apply Known_inj in Hrt as ->.
    assert (Hi : ¬ changed_at previous next i).
    { intros (p' & n' & Hp' & Hn' & Hc). congruence. }
    apply Hold in Hi. congruence.
  - intros Hsame.
    destruct (decide (length previous = length next)) as [Hlen|Hlen];
      [|by rewrite createPatches_length_differs].
    apply (round_trip_unchanged_eq (Some previous) next).
    intros rows i p n [= <-] Hp Hn Hun.
    apply (Hsame Hlen i p n Hp Hn). by apply row_unchanged_spec.
Qed.

(** X5.  The patches computed from [previous] and [next], applied to any
    holder of a result set of the same length as [previous], give a result
    set of that length with the rows of [next] at the changed indices and
    the holder's own rows at the others. *)
Theorem diff_on_holder_of_same_length (previous next cur : list Row) :
  length previous = length next → length cur = length previous →
  ∃ r, applyPatches (createPatches (Some previous) next) (Known cur) = Known r ∧
       length r = length next ∧
       (∀ i, changed_at previous next i → r !! i = next !! i) ∧
       (∀ i, ¬ changed_at previous next i → r !! i = cur !! i).
Proof. apply apply_diff_pointwise. Qed.

Lemma diff_on_holder_of_same_length_witness :
  ∃ r, applyPatches (createPatches (Some sample_previous) sample_next)
         (Known [rowA 7; rowA 7; rowA 7]) = Known r ∧
       length r = length sample_next ∧
       (∀ i, changed_at sample_previous sample_next i → r !! i = sample_next !! i) ∧
       (∀ i, ¬ changed_at sample_previous sample_next i →
             r !! i = [rowA 7; rowA 7; rowA 7] !! i).
Proof.
  apply (diff_on_holder_of_same_length sample_previous sample_next
           [rowA 7; rowA 7; rowA 7]); reflexivity.
Defined.

(** X6.  A holder without a result never gets a partial one: applying an
    answer to an unknown holder gives [next] when the answer is the full
    replacement, and leaves the holder unknown otherwise. *)
Theorem diff_on_unknown_holder (previous : option (list Row)) (next : list Row) :
  (createPatches previous next = [replaceAll next] ∧
   applyPatches (createPatches previous next) Unknown = Known next) ∨
  (createPatches previous next ≠ [replaceAll next] ∧
   applyPatches (createPatches previous next) Unknown = Unknown).
Proof.
  destruct (createPatches_kinds previous next) as [Hnil|[Hall|[Hne Hkind]]].
  - right. by rewrite Hnil.
  - left. by rewrite Hall.
  - right. split; [|by apply applyPatches_replaceAt_unknown].
    intros Hall. rewrite Hall in Hkind.
    apply Forall_cons_1 in Hkind as [(i & v & [=]) _].
Qed.

(** X7.  A holder with a result keeps having one: applying an answer of
    [createPatches] to a known holder never makes it unknown. *)
Theorem diff_on_known_holder (previous : option (list Row)) (next : list Row)
    (a : list Slot) :
  is_Some (applyPatches (createPatches previous next) (Some a)).
Proof.
  apply applyPatches_known_is_Some.
  destruct (createPatches_kinds previous next) as [->|[->|[_ Hkind]]].
  - apply not_elem_of_nil.
  - by intros [=]%list_elem_of_singleton.
  - intros Hin. rewrite Forall_forall in Hkind.
    by destruct (Hkind purge Hin) as (i & v & ?).
Qed.

(** X8.  Answers compose: a holder of [previous] that applies the answer
    for [previous] and [middle] and then the answer for [middle] and [next]
    ends with [next], when the rows of each pair are aligned. *)
Theorem chained_diffs (previous : option (list Row)) (middle next : list Row) :
  rows_aligned previous middle → rows_aligned (Some middle) next →
  applyPatches (createPatches previous middle ++ createPatches (Some middle) next)
    (held previous)
  = Known next.
Proof.
  intros H1 H2. rewrite applyPatches_app.
  rewrite (round_trip_unchanged_eq previous middle)
    by by apply aligned_unchanged_eq.
  apply (round_trip_unchanged_eq (Some middle) next).
  by apply aligned_unchanged_eq.
Qed.

Lemma rows_aligned_sample (x : float) :
  (PrimFloat.eqb 2 x = false ∨ 2%float = x) →
  rows_aligned (Some [rowA 1; rowA 2; rowA 3]) [rowA 1; rowA x; rowA 3].
Proof.
  intros Hx rows i p n [= <-] Hp Hn.
  destruct i as [|[|[|i]]]; simpl in Hp, Hn; [| | |done];
    injection Hp as <-; injection Hn as <-.
  - right. by apply aligned_rowA.
  - destruct Hx as [Hx| <-]; [left; by apply changed_rowA|].
    right. by apply aligned_rowA.
  - right. by apply aligned_rowA.
Qed.

Lemma chained_diffs_witness :
  applyPatches (createPatches None sample_previous
                ++ createPatches (Some sample_previous) sample_next)
    (held None)
  = Known sample_next.
Proof.
  apply (chained_diffs None sample_previous sample_next).
  - by intros rows i p n [=].
  - apply (rows_aligned_sample 9). by left.
Defined.

(** ** A [replaceAt] patch past the end *)

Lemma length_spread (a : list Slot) : length (spread_elements a) = length a.
Proof. unfold spread_elements. apply length_fmap. Qed.

(** X9.  A [replaceAt] patch whose index is an array index at or past the
    end of the held array is not refused: the copy grows to hold the index,
    the positions the array had hold what its copy holds, the row of the
    patch is at the index and the positions in between are holes.  When a
    hole is left the result is not a result set any more. *)
Theorem replaceAt_past_end (a : list Slot) (i : nat) (v : Row) :
  length a ≤ i → is_array_index i = true →
  ∃ r, applyPatches [replaceAt i v] (Some a) = Some r ∧
       length r = S i ∧
       r !! i = Some (SlotRow v) ∧
       (∀ j, j < length a → r !! j = spread_elements a !! j) ∧
       (∀ j, length a ≤ j < i → r !! j = Some SlotHole) ∧
       (length a < i → ∀ rows, r ≠ dense rows).
Proof.
  intros Hi Hindex. pose proof (length_spread a) as Hlen.
  exists (spread_elements a
          ++ replicate (i - length (spread_elements a)) SlotHole
          ++ [SlotRow v]).
  assert (Hgap : ∀ j, length a ≤ j < i →
            (spread_elements a
             ++ replicate (i - length (spread_elements a)) SlotHole
             ++ [SlotRow v]) !! j = Some SlotHole).
  { intros j Hj. rewrite lookup_app_r by lia.
    rewrite lookup_app_l by (rewrite length_replicate; lia).
    apply lookup_replicate_2. lia. }
  split_and!.
  - unfold applyPatches. simpl. unfold array_assign.
    destruct (decide (i < length (spread_elements a))); [lia|].
    by rewrite Hindex.
  - rewrite !length_app, length_replicate. simpl. lia.
  - rewrite lookup_app_r by lia.
    rewrite lookup_app_r by (rewrite length_replicate; lia).
    rewrite length_replicate, Nat.sub_diag. done.
  - intros j Hj. rewrite lookup_app_l by lia. done.
  - exact Hgap.
  - intros Hlt rows Heq. specialize (Hgap (length a) (conj (le_n _) Hlt)).
    rewrite Heq in Hgap. unfold dense in Hgap.
    rewrite list_lookup_fmap in Hgap. by destruct (rows !! length a).
Qed.

Lemma replaceAt_past_end_witness :
  ∃ r, applyPatches [replaceAt 3 (rowA 9)] (Some (dense [rowA 1])) = Some r ∧
       length r = 4 ∧
       r !! 3 = Some (SlotRow (rowA 9)) ∧
       (∀ j, j < length (dense [rowA 1]) →
             r !! j = spread_elements (dense [rowA 1]) !! j) ∧
       (∀ j, length (dense [rowA 1]) ≤ j < 3 → r !! j = Some SlotHole) ∧
       (length (dense [rowA 1]) < 3 → ∀ rows, r ≠ dense rows).
Proof.
  apply (replaceAt_past_end (dense [rowA 1]) 3 (rowA 9)).
  - simpl. lia.
  - reflexivity.
Defined.

(** ** The store *)

Lemma store_reducer_frame (a : option Store.loc) (h : Store.heap)
    (sp : Store.Patch) :
  h ⊆ (Store.reducer (a, h) sp).2.
Proof.
  destruct sp as [l|i v|]; [done| |done].
  destruct a as [a|]; [|done].
  destruct (h !! a) as [elems|] eqn:Ha.
  - rewrite (store_reducer_replaceAt h a elems i v Ha).
    apply insert_subseteq, fresh_unallocated.
  - unfold Store.reducer. by rewrite Ha.
Qed.

(** X10.  [applyPatches] writes to no array it is given: whatever the
    patches and the held reference, every array that is in the store before
    the call is in the store after it, with the same elements. *)
Theorem store_applyPatches_frame (sps : list Store.Patch)
    (a : option Store.loc) (h : Store.heap) (l : Store.loc)
    (elems : list Slot) :
  h !! l = Some elems → (Store.applyPatches sps a h).2 !! l = Some elems.
Proof.
  revert a h. induction sps as [|sp sps IH]; intros a h Hl; [done|].
  unfold Store.applyPatches in *.
  change (foldl Store.reducer (a, h) (sp :: sps))
    with (foldl Store.reducer (Store.reducer (a, h) sp) sps).
  pose proof (store_reducer_frame a h sp) as Hsub.
  destruct (Store.reducer (a, h) sp) as [a1 h1]. apply IH.
  by eapply lookup_weaken.
Qed.

Lemma store_applyPatches_frame_witness :
  (Store.applyPatches
     [Store.replaceAt 1 (rowA 9); Store.replaceAll 5%positive;
      Store.replaceAt 0 (rowA 2); Store.purge]
     (Some 5%positive) sample_heap).2 !! 5%positive
  = Some (dense sample_previous).
Proof.
  apply (store_applyPatches_frame _ (Some 5%positive) sample_heap 5%positive).
  reflexivity.
Defined.

(** X11.  The applier on the store computes what the applier on values
    computes: when each store patch stands for a value patch and the held
    reference for a held result, the reference returned stands, in the
    store returned, for the result of [applyPatches] on the values. *)
Theorem store_agrees_with_values (sps : list Store.Patch) (ps : list Patch)
    (h : Store.heap) (a : option Store.loc) (v : HeldResult) :
  Forall2 (patch_in h) sps ps → held_in h a v →
  held_in (Store.applyPatches sps a h).2 (Store.applyPatches sps a h).1
    (applyPatches ps v).
Proof.
  intros Hps Ha. by apply store_applyPatches_refines.
Qed.

Lemma store_agrees_with_values_witness :
  held_in
    (Store.applyPatches
       [Store.replaceAll 5%positive; Store.replaceAt 1 (rowA 9)]
       None sample_heap).2
    (Store.applyPatches
       [Store.replaceAll 5%positive; Store.replaceAt 1 (rowA 9)]
       None sample_heap).1
    (applyPatches [replaceAll sample_previous; replaceAt 1 (rowA 9)] Unknown).
Proof.
  apply (store_agrees_with_values
           [Store.replaceAll 5%positive; Store.replaceAt 1 (rowA 9)]
           [replaceAll sample_previous; replaceAt 1 (rowA 9)]
           sample_heap None Unknown).
  - repeat constructor.
  - exact I.
Defined.

(** ** Strict equality of numbers *)

Lemma SFeqb_sym (s t : spec_float) : SFeqb s t = SFeqb t s.
Proof.
  unfold SFeqb, SFcompare.
  destruct s as [[]|[]| |[] m1 e1], t as [[]|[]| |[] m2 e2]; try reflexivity;
    fold (Pos.compare m1 m2); fold (Pos.compare m2 m1);
    rewrite (Z.compare_antisym e1 e2), (Pos.compare_antisym m1 m2);
    destruct (e1 ?= e2)%Z; simpl; try reflexivity;
    destruct (m1 ?= m2)%positive; reflexivity.
Qed.

Lemma SFeqb_irrefl (s : spec_float) : SFeqb s s = false ↔ s = S754_nan.
Proof.
  unfold SFeqb, SFcompare.
  destruct s as [[]|[]| |[] m e]; try done;
    fold (Pos.compare m m); rewrite Z.compare_refl, Pos.compare_refl; done.
Qed.

(** [x === y] and [y === x] agree. *)
Lemma float_eqb_sym (x y : float) : PrimFloat.eqb x y = PrimFloat.eqb y x.
Proof. rewrite !FloatAxioms.eqb_spec. apply SFeqb_sym. Qed.

(** Only NaN is not strictly equal to itself. *)
Lemma float_eqb_irrefl (x : float) : PrimFloat.eqb x x = false ↔ x = nan.
Proof.
  rewrite FloatAxioms.eqb_spec, SFeqb_irrefl. split.
  - intros Hs. apply Prim2SF_inj. by rewrite Hs.
  - by intros ->.
Qed.

Lemma float_eqb_nan (y : float) : PrimFloat.eqb nan y = false.
Proof. by rewrite FloatAxioms.eqb_spec. Qed.

Lemma strict_eqb_irrefl (v : SqliteValue) :
  strict_eqb v v = false ↔ v = Num nan.
Proof.
  destruct v as [|x|s|r]; simpl.
  - done.
  - rewrite float_eqb_irrefl. split; congruence.
  - by rewrite bool_decide_eq_true_2.
  - by rewrite bool_decide_eq_true_2.
Qed.

Lemma nan_changed (p n : Row) (key : string) :
  p !! key = Some (Num nan) → RowChanged p n.
Proof.
  intros Hp. exists key, (Num nan). split; [done|].
  destruct (n !! key) as [[|y|s|r]|]; simpl; try done.
  by rewrite float_eqb_nan.
Qed.

(** ** NaN fields *)

(** X12.  A NaN field makes its row changed: the inner loop reports the
    row against every next row, so the answer for results of the same
    length is the full replacement or has the [replaceAt] patch of that
    row. *)
Theorem nan_field_always_changed (previous next : list Row) (i : nat)
    (p : Row) (key : string) :
  length previous = length next → previous !! i = Some p →
  p !! key = Some (Num nan) →
  (∀ n, row_changed p n = true) ∧
  ∃ n, next !! i = Some n ∧
       (createPatches (Some previous) next = [replaceAll next] ∨
        replaceAt i n ∈ createPatches (Some previous) next).
Proof.
  intros Hlen Hp Hnan. split.
  - intros n. by apply row_changed_spec, (nan_changed p n key).
  - destruct (lookup_lt_is_Some_2 next i) as [n Hn].
    { apply lookup_lt_Some in Hp. lia. }
    exists n. split; [done|].
    assert (Hc : changed_at previous next i).
    { exists p, n. split_and!; [done|done|]. by apply (nan_changed p n key). }
    destruct (createPatches_cases (Some previous) next)
      as [Hnil|[Hall|(rows & [= <-] & _ & Heq & _)]].
    + by destruct (proj1 (createPatches_nil_iff _ _ Hlen) Hnil i).
    + by left.
    + right. rewrite Heq. apply (elem_of_scan previous next _ Hlen).
      by exists i, n.
Qed.

Lemma nan_field_always_changed_witness :
  (∀ n, row_changed (rowA nan) n = true) ∧
  ∃ n, [rowA nan; rowA 1] !! 0 = Some n ∧
       (createPatches (Some [rowA nan; rowA 1]) [rowA nan; rowA 1]
        = [replaceAll [rowA nan; rowA 1]] ∨
        replaceAt 0 n ∈ createPatches (Some [rowA nan; rowA 1])
                          [rowA nan; rowA 1]).
Proof.
  apply (nan_field_always_changed [rowA nan; rowA 1] [rowA nan; rowA 1] 0
           (rowA nan) "a"); reflexivity.
Defined.

(** X13.  Comparing a result set with itself gives no patch exactly when
    none of its fields is NaN. *)
Theorem self_diff_iff (rows : list Row) :
  createPatches (Some rows) rows = [] ↔
  ∀ i p key, rows !! i = Some p → p !! key ≠ Some (Num nan).
Proof.
  rewrite createPatches_nil_iff by done. split.
  - intros Hnone i p key Hp Hnan. apply (Hnone i). exists p, p.
    split_and!; [done|done|]. by apply (nan_changed p p key).
  - intros Hnan i (p & n & Hp & Hn & key & x & Hx & Hne).
    rewrite Hp in Hn. injection Hn as <-. rewrite Hx in Hne. simpl in Hne.
    apply negb_true_iff, strict_eqb_irrefl in Hne as ->.
    by apply (Hnan i p key Hp).
Qed.

(** ** [cast] *)

(** X14.  [cast] of a boolean is a number that passes the [SqliteBoolean]
    filter, and [cast] of that number is the boolean again. *)
Theorem cast_boolean_round_trip (JsDate : Type)
    (toISOString : JsDate → option string) (newDate : string → JsDate)
    (b : bool) :
  ∃ n, cast toISOString newDate (CastBoolean b) = Some (CastNumber n) ∧
       SqliteBoolean_filter n = true ∧
       cast toISOString newDate (CastNumber n) = Some (CastBoolean b).
Proof.
  exists (if b then 1 else 0)%float. by destruct b.
Qed.

(** X15.  [cast] of a number is a boolean, true exactly for the numbers
    strictly equal to 1; [cast] of that boolean is 1 or 0, and it is
    strictly equal to the number one started from exactly when that number
    passes the [SqliteBoolean] filter. *)
Theorem cast_number_round_trip (JsDate : Type)
    (toISOString : JsDate → option string) (newDate : string → JsDate)
    (n : float) :
  ∃ m, cast toISOString newDate (CastNumber n)
       = Some (CastBoolean (PrimFloat.eqb n 1)) ∧
       cast toISOString newDate (CastBoolean (PrimFloat.eqb n 1))
       = Some (CastNumber m) ∧
       SqliteBoolean_filter m = true ∧
       PrimFloat.eqb m n = SqliteBoolean_filter n.
Proof.
  exists (if PrimFloat.eqb n 1 then 1 else 0)%float.
  split_and!; [done|done|by destruct (PrimFloat.eqb n 1)|].
  unfold SqliteBoolean_filter. destruct (PrimFloat.eqb n 1) eqn:Hn.
  - by rewrite float_eqb_sym, Hn, orb_true_r.
  - by rewrite float_eqb_sym, orb_false_r.
Qed.

(** ** Added fields, and the size of an answer *)

(** X16.  Fields that only the next rows have are not noticed: when every
    row of [next] has all the fields of the row of [previous] at its index
    with the same values, and possibly more fields, and no field of
    [previous] is NaN, the answer is empty. *)
Theorem added_fields_unnoticed (previous next : list Row) :
  length previous = length next →
  (∀ i p n, previous !! i = Some p → next !! i = Some n → p ⊆ n) →
  (∀ i p key, previous !! i = Some p → p !! key ≠ Some (Num nan)) →
  createPatches (Some previous) next = [].
Proof.
  intros Hlen Hext Hnan. apply createPatches_nil_iff; [done|].
  intros i (p & n & Hp & Hn & key & x & Hx & Hne).
  rewrite (lookup_weaken p n key x Hx (Hext i p n Hp Hn)) in Hne.
  simpl in Hne. apply negb_true_iff, strict_eqb_irrefl in Hne as ->.
  by apply (Hnan i p key Hp).
Qed.

Lemma added_fields_unnoticed_witness :
  createPatches (Some [rowA 1]) [rowAB 1 2] = [].
Proof.
  apply (added_fields_unnoticed [rowA 1] [rowAB 1 2]); [reflexivity| |].
  - intros i p n Hp Hn. destruct i as [|i]; [|done].
    injection Hp as <-. injection Hn as <-. by apply insert_subseteq.
  - intros i p key Hp Hkey. destruct i as [|i]; [|done].
    injection Hp as <-. by apply lookup_rowA in Hkey as [_ [= Hnan]].
Defined.

(** X17.  An answer has at most one patch, or fewer patches than [next]
    has rows. *)
Theorem answer_length_bound (previous : option (list Row)) (next : list Row) :
  length (createPatches previous next) ≤ Nat.max 1 (length next - 1).
Proof.
  destruct (createPatches_cases previous next)
    as [->|[->|(rows & _ & Hlen & _ & _ & Hlt)]]; simpl; lia.
Qed.

(** ** Applying an answer twice *)

Lemma spread_idemp (a : list Slot) :
  spread_elements (spread_elements a) = spread_elements a.
Proof.
  unfold spread_elements. rewrite <- list_fmap_compose.
  apply list_fmap_ext. by intros i [row| |] _.
Qed.

Lemma spread_insert_row (a : list Slot) (i : nat) (v : Row) :
  spread_elements (<[i := SlotRow v]> a)
  = <[i := SlotRow v]> (spread_elements a).
Proof. unfold spread_elements. by rewrite list_fmap_insert. Qed.

Lemma lookup_spread_row (a : list Slot) (i : nat) (v : Row) :
  a !! i = Some (SlotRow v) → spread_elements a !! i = Some (SlotRow v).
Proof.
  intros Hi. unfold spread_elements. by rewrite list_lookup_fmap, Hi.
Qed.

(** In range, a [replaceAt] step overwrites one position of the copy. *)
Lemma reducer_in_range (a : list Slot) (i : nat) (v : Row) :
  i < length a →
  reducer (Some a) (replaceAt i v)
  = Some (<[i := SlotRow v]> (spread_elements a)).
Proof.
  intros Hi. simpl. unfold array_assign. rewrite length_spread.
  by destruct (decide (i < length a)).
Qed.

(** The patches of a scan, applied to an array that has all their indices:
    the length stays, a row at an index without a patch stays, each patch
    has its row at its index, and no hole is left. *)
Lemma replay_in_range (patches : list Patch) (n : nat) :
  Forall (λ patch, ∃ i v, patch = replaceAt i v ∧ i < n) patches →
  StronglySorted index_lt patches →
  ∀ s, n ≤ length s →
    ∃ r, applyPatches patches (Some s) = Some r ∧
         length r = length s ∧
         (spread_elements s = s ∨ patches ≠ [] → spread_elements r = r) ∧
         (∀ i x, s !! i = Some (SlotRow x) →
                 (∀ j w, replaceAt j w ∈ patches → j ≠ i) →
                 r !! i = Some (SlotRow x)) ∧
         (∀ i v, replaceAt i v ∈ patches → r !! i = Some (SlotRow v)).
Proof.
  intros Hrange Hsorted.
  induction Hsorted as [|patch patches Hsorted IH Hlt]; intros s Hs.
  - exists s. split_and!; [done|done| |done|].
    + by intros [?|?].
    + intros i v Hin. by apply not_elem_of_nil in Hin.
  - apply Forall_cons_1 in Hrange as [(j & w & -> & Hj) Hrange].
    destruct (IH Hrange (<[j := SlotRow w]> (spread_elements s)))
      as (r & Hr & Hlr & Hfull & Hkeep & Hset).
    { by rewrite length_insert, length_spread. }
    rewrite length_insert, length_spread in Hlr.
    assert (Hhead : r !! j = Some (SlotRow w)).
    { apply Hkeep.
      - apply list_lookup_insert_eq. rewrite length_spread. lia.
      - intros k u Hin. rewrite Forall_forall in Hlt.
        specialize (Hlt _ Hin). simpl in Hlt. lia. }
    exists r. split_and!.
    + change (applyPatches (replaceAt j w :: patches) (Some s))
        with (applyPatches patches (reducer (Some s) (replaceAt j w))).
      rewrite reducer_in_range by lia. done.
    + done.
    + intros _. apply Hfull. left.
      by rewrite spread_insert_row, spread_idemp.
    + intros i x Hi Hother. apply Hkeep.
      * rewrite list_lookup_insert_ne; [by apply lookup_spread_row|].
        apply (Hother j w), list_elem_of_here.
      * intros k u Hin. by apply (Hother k u), list_elem_of_further.
    + intros i v [[= -> ->]|Hin]%elem_of_cons; [done|by apply Hset].
Qed.

(** A sequence of [replaceAt] patches does nothing to an array without
    holes that has each patch's row at its index already. *)
Lemma replay_again (patches : list Patch) (r : list Slot) :
  Forall is_replaceAt patches → spread_elements r = r →
  (∀ i v, replaceAt i v ∈ patches → r !! i = Some (SlotRow v)) →
  applyPatches patches (Some r) = Some r.
Proof.
  intros Hkind Hfull.
  induction Hkind as [|patch patches (j & w & ->) _ IH]; intros Hset; [done|].
  change (applyPatches (replaceAt j w :: patches) (Some r))
    with (applyPatches patches (reducer (Some r) (replaceAt j w))).
  pose proof (Hset j w (list_elem_of_here _ _)) as Hj.
  rewrite reducer_in_range by (by eapply lookup_lt_Some).
  rewrite Hfull, list_insert_id by done.
  apply IH. intros i v Hin. by apply Hset, list_elem_of_further.
Qed.

(** The patches of a scan have indices below the length of the results. *)
Lemma scan_in_range (previous next : list Row) (n : nat) :
  Forall (λ patch, ∃ i v, patch = replaceAt i v ∧ i < length previous)
    (omap (pushed_at previous next) (seq 0 n)).
Proof.
  apply Forall_forall. intros patch (i & _ & Hi)%list_elem_of_omap.
  apply pushed_at_Some in Hi as (p & m & Hp & _ & _ & ->).
  exists i, m. split; [done|]. by eapply lookup_lt_Some.
Qed.

(** X18.  Applying an answer a second time changes nothing, for a holder
    without a result and for a holder of any array at least as long as
    [next]: a repeated delivery of the same patches is harmless there. *)
Theorem diff_apply_idempotent (previous : option (list Row)) (next : list Row)
    (current : HeldResult) :
  (∀ a, current = Some a → length next ≤ length a) →
  applyPatches (createPatches previous next)
    (applyPatches (createPatches previous next) current)
  = applyPatches (createPatches previous next) current.
Proof.
  intros Hlong.
  destruct (createPatches_cases previous next)
    as [->|[->|(rows & _ & Hlen & Heq & Hpos & _)]]; [done|done|].
  rewrite Heq in *.
  pose proof (scan_ascending rows next (length rows)) as [Hkind Hsorted].
  destruct current as [a|];
    [|by rewrite !applyPatches_replaceAt_unknown].
  destruct (replay_in_range _ (length rows)
              (scan_in_range rows next (length rows)) Hsorted a)
    as (r & -> & _ & Hfull & _ & Hset).
  { rewrite Hlen. by apply Hlong. }
  apply replay_again; [done| |done].
  apply Hfull. right. intros Hnil. rewrite Hnil in Hpos. simpl in Hpos. lia.
Qed.

Lemma diff_apply_idempotent_witness :
  applyPatches (createPatches (Some sample_previous) sample_next)
    (applyPatches (createPatches (Some sample_previous) sample_next)
       (Some [SlotHole; SlotRow (rowA 7); SlotUndefined; SlotRow (rowA 7)]))
  = applyPatches (createPatches (Some sample_previous) sample_next)
      (Some [SlotHole; SlotRow (rowA 7); SlotUndefined; SlotRow (rowA 7)]).
Proof.
  apply (diff_apply_idempotent (Some sample_previous) sample_next).
  intros a [= <-]. simpl. lia.
Defined.
